(** * The reflective-disc fragment shader of [src/main.js]

    The analytic content of the repository is the GLSL fragment shader
    embedded in [createRaytracingShaderMaterial] (lines 105-187 of
    [src/main.js]): [intersectDisc], [getColorOfBackground] and [main].

    Arithmetic model.  A GLSL [float] is modelled by a real number of the
    Standard Library: every operation is exact, so the statements below are
    the ones the shader satisfies before rounding.  The one place where the
    real numbers cannot follow the machine is a division by zero, and that
    is kept observable: every scalar division the shader executes is
    recorded, with its divisor, in a log that the execution monad threads
    through the program.

    Effects.  A function body is a computation over the frame of its
    parameters and locals; an [inout] parameter is copied into the callee's
    frame and copied out by the caller when the call returns. *)

From Stdlib Require Import Reals Lra Lia List.
Import ListNotations.

Open Scope R_scope.

(** The mathematical constant; [PI] below is the shader's macro. *)
Abbreviation pi := Rtrigo1.PI (only parsing).

(** ** GLSL vectors and built-in functions *)

Module Glsl.

Record vec2 : Type := mkVec2 { v2x : R; v2y : R }.
Record vec3 : Type := mkVec3 { vx : R; vy : R; vz : R }.
Record vec4 : Type := mkVec4 { cr : R; cg : R; cb : R; ca : R }.

Definition vadd (a b : vec3) : vec3 :=
  mkVec3 (vx a + vx b) (vy a + vy b) (vz a + vz b).

Definition vsub (a b : vec3) : vec3 :=
  mkVec3 (vx a - vx b) (vy a - vy b) (vz a - vz b).

(** [vec3 * float] and [float * vec3] are component-wise. *)
Definition vscale (a : vec3) (k : R) : vec3 :=
  mkVec3 (vx a * k) (vy a * k) (vz a * k).

Definition dot (a b : vec3) : R :=
  vx a * vx b + vy a * vy b + vz a * vz b.

Definition length (a : vec3) : R := sqrt (dot a a).

(** [reflect(I, N) = I - 2.0 * dot(N, I) * N]. *)
Definition reflect (I N : vec3) : vec3 :=
  vsub I (vscale N (2 * dot N I)).

(** The two-argument [atan(y, x)]: the angle of the point [(x, y)], in
    [(-pi, pi]].  GLSL leaves [atan(0, 0)] undefined: [origin] stands for
    whatever the implementation returns there, and nothing is assumed
    about it here. *)
Definition atan2 (origin y x : R) : R :=
  if Rlt_dec 0 x then atan (y / x)
  else if Rlt_dec x 0 then
    if Rle_dec 0 y then atan (y / x) + pi else atan (y / x) - pi
  else if Rlt_dec 0 y then pi / 2
  else if Rlt_dec y 0 then - (pi / 2)
  else origin.

(** A bound texture is a function from normalised coordinates to colours. *)
Definition sampler2D : Type := vec2 -> vec4.

Definition texture2D (tex : sampler2D) (uv : vec2) : vec4 := tex uv.

End Glsl.

Export Glsl.

Declare Scope vec_scope.
Delimit Scope vec_scope with vec.
Infix "+v" := vadd (at level 50, left associativity) : vec_scope.
Infix "-v" := vsub (at level 50, left associativity) : vec_scope.
Infix "*v" := vscale (at level 40, left associativity) : vec_scope.
Open Scope vec_scope.

(** ** Execution monad: a local frame and the log of executed divisions *)

Module Exec.

(** The divisors of the scalar divisions executed so far, newest first. *)
Definition divlog : Type := list R.

Definition M (S A : Type) : Type := S -> divlog -> A * S * divlog.

Definition ret {S A} (a : A) : M S A := fun st lg => (a, st, lg).

Definition bind {S A B} (m : M S A) (k : A -> M S B) : M S B :=
  fun st lg => let '(a, st', lg') := m st lg in k a st' lg'.

Definition gets {S A} (f : S -> A) : M S A := fun st lg => (f st, st, lg).

Definition modify {S} (f : S -> S) : M S unit := fun st lg => (tt, f st, lg).

(** A scalar division: the divisor goes to the log. *)
Definition fdiv {S} (x y : R) : M S R := fun st lg => (x / y, st, y :: lg).

(** A function call: the body runs on a frame of its own; the caller's
    frame is untouched, the log is shared.  The callee's final frame is
    handed back so that [out] and [inout] parameters can be copied out. *)
Definition call {S S' A} (frame : S') (body : M S' A) : M S (A * S') :=
  fun st lg => let '(a, fr, lg') := body frame lg in ((a, fr), st, lg').

Definition value {S A} (o : A * S * divlog) : A := fst (fst o).
Definition frame_of {S A} (o : A * S * divlog) : S := snd (fst o).
Definition divisions {S A} (o : A * S * divlog) : divlog := snd o.

End Exec.

Export Exec.

Notation "x <- m ;; k" := (bind m (fun x => k))
  (at level 61, m at next level, right associativity).
Notation "m ;;; k" := (bind m (fun _ => k))
  (at level 61, right associativity).

(** [vec3 / float] is three scalar divisions by the same divisor. *)
Definition vdiv {S} (a : vec3) (k : R) : M S vec3 :=
  x <- fdiv (vx a) k ;;
  y <- fdiv (vy a) k ;;
  z <- fdiv (vz a) k ;;
  ret (mkVec3 x y z).

(** ** The fragment shader *)

Module Shader.

(** [#define PI 3.1415926538] *)
Definition PI : R := 3.1415926538.

(** *** [intersectDisc] *)

(** The parameters of [intersectDisc]; [arg_s] is the [inout] one. *)
Record discFrame : Type := mkDiscFrame {
  arg_s : vec3;
  arg_d : vec3;
  arg_c : vec3;
  arg_nHat : vec3;
  arg_r : R
}.

Definition set_arg_s (i : vec3) (f : discFrame) : discFrame :=
  mkDiscFrame i (arg_d f) (arg_c f) (arg_nHat f) (arg_r f).

(** The body, lines 126-151.  The two [return] statements inside the
    nested conditionals and the final [return false] are the three leaves
    of the conditional below. *)
Definition intersectDisc_body : M discFrame bool :=
  deltaN <- gets (fun f => dot (arg_c f -v arg_s f) (arg_nHat f)) ;;
  dN <- gets (fun f => dot (arg_d f) (arg_nHat f)) ;;
  if Rgt_dec (dN * deltaN) 0 then
    d <- gets arg_d ;;
    q <- vdiv d dN ;;
    i <- gets (fun f => arg_s f +v q *v deltaN) ;;
    far <- gets (fun f => length (i -v arg_c f)) ;;
    r <- gets arg_r ;;
    if Rle_dec far r then
      modify (set_arg_s i) ;;;
      ret true
    else ret false
  else ret false.

(** A call of [intersectDisc]: the result and the value copied out of the
    [inout] parameter [s]. *)
Definition intersectDisc {S} (s d c nHat : vec3) (r : R) : M S (bool * vec3) :=
  o <- call (mkDiscFrame s d c nHat r) intersectDisc_body ;;
  ret (fst o, arg_s (snd o)).

(** *** [getColorOfBackground] and [main] *)

Section Uniforms.

(** What the GLSL implementation under the shader returns for
    [atan(0, 0)]. *)
Variable atan_origin : R.

(** [uniform sampler2D backgroundTexture], the camera position supplied by
    the host library, and the [varying] written by the vertex stage. *)
Variable backgroundTexture : sampler2D.
Variable cameraPosition : vec3.
Variable intersectionPoint : vec3.

(** Lines 154-162.  [d], [l], [phi] and [theta] are assigned once. *)
Definition getColorOfBackground {S} (d : vec3) : M S vec4 :=
  let l := length d in
  let phi := atan2 atan_origin (vz d) (vx d) + PI in
  q <- fdiv (vy d) l ;;
  let theta := acos q in
  u <- fdiv phi (2 * PI) ;;
  t <- fdiv theta PI ;;
  ret (texture2D backgroundTexture (mkVec2 u (1 - t))).

(** The locals of [main] and the output variable [gl_FragColor]. *)
Record mainFrame : Type := mkMainFrame {
  loc_s : vec3;
  loc_d : vec3;
  loc_nHat : vec3;
  gl_FragColor : vec4
}.

Definition set_loc_s (v : vec3) (f : mainFrame) : mainFrame :=
  mkMainFrame v (loc_d f) (loc_nHat f) (gl_FragColor f).

Definition set_loc_d (v : vec3) (f : mainFrame) : mainFrame :=
  mkMainFrame (loc_s f) v (loc_nHat f) (gl_FragColor f).

Definition set_loc_nHat (v : vec3) (f : mainFrame) : mainFrame :=
  mkMainFrame (loc_s f) (loc_d f) v (gl_FragColor f).

Definition set_gl_FragColor (v : vec4) (f : mainFrame) : mainFrame :=
  mkMainFrame (loc_s f) (loc_d f) (loc_nHat f) v.

(** Lines 164-186. *)
Definition main : M mainFrame unit :=
  modify (set_loc_s cameraPosition) ;;;
  modify (set_loc_d (intersectionPoint -v cameraPosition)) ;;;
  modify (set_loc_nHat (mkVec3 1 0 0)) ;;;
  s <- gets loc_s ;;
  d <- gets loc_d ;;
  nHat <- gets loc_nHat ;;
  o <- intersectDisc s d (mkVec3 3 0 0) nHat 1 ;;
  modify (set_loc_s (snd o)) ;;;
  (if fst o then
     d <- gets loc_d ;;
     nHat <- gets loc_nHat ;;
     modify (set_loc_d (reflect d nHat))
   else ret tt) ;;;
  d <- gets loc_d ;;
  colour <- getColorOfBackground d ;;
  modify (set_gl_FragColor colour).

End Uniforms.

(** The outcome of the disc test as a value: the result and the start
    point after the call, read off a run on an empty frame and log. *)
Definition disc_test (s d c nHat : vec3) (r : R) : bool * vec3 :=
  value (intersectDisc s d c nHat r tt []).

End Shader.

Export Shader.

(** ** Vector algebra *)

Lemma vec3_eq (a b : vec3) :
  vx a = vx b -> vy a = vy b -> vz a = vz b -> a = b.
Proof.
  destruct a, b; simpl; intros -> -> ->; reflexivity.
Qed.

(** The point computed on line 136, [s + d/dN*deltaN], is
    [s + d * (deltaN / dN)]. *)
Lemma plane_point_forms (s d : vec3) (dN deltaN : R) :
  s +v mkVec3 (vx d / dN) (vy d / dN) (vz d / dN) *v deltaN
  = s +v d *v (deltaN / dN).
Proof.
  apply vec3_eq; simpl; unfold Rdiv; ring.
Qed.

Lemma dot_sub_l (a b n : vec3) : dot (a -v b) n = dot a n - dot b n.
Proof. unfold dot; simpl; ring. Qed.

Lemma dot_add_l (a b n : vec3) : dot (a +v b) n = dot a n + dot b n.
Proof. unfold dot; simpl; ring. Qed.

Lemma dot_scale_l (a n : vec3) (k : R) : dot (a *v k) n = dot a n * k.
Proof. unfold dot; simpl; ring. Qed.

Lemma dot_comm (a b : vec3) : dot a b = dot b a.
Proof. unfold dot; ring. Qed.

Lemma dot_self_nonneg (a : vec3) : 0 <= dot a a.
Proof. unfold dot; nra. Qed.

(** ** Runs of [intersectDisc] *)

(** Case analysis on the forward test and, inside it, the radius test. *)
Ltac disc_cases :=
  match goal with
  | |- context [Rgt_dec ?p 0] =>
      destruct (Rgt_dec p 0) as [Hfwd | Hfwd];
      [ match goal with
        | |- context [Rle_dec ?l ?r] => destruct (Rle_dec l r) as [Hin | Hin]
        end
      | ]
  end.

(** The three leaves of the body, in closed form. *)
Lemma intersectDisc_body_run (f : discFrame) (lg : divlog) :
  let deltaN := dot (arg_c f -v arg_s f) (arg_nHat f) in
  let dN := dot (arg_d f) (arg_nHat f) in
  let i := arg_s f +v arg_d f *v (deltaN / dN) in
  intersectDisc_body f lg =
    if Rgt_dec (dN * deltaN) 0 then
      if Rle_dec (length (i -v arg_c f)) (arg_r f)
      then (true, set_arg_s i f, dN :: dN :: dN :: lg)
      else (false, f, dN :: dN :: dN :: lg)
    else (false, f, lg).
Proof.
  intros deltaN dN i.
  unfold intersectDisc_body, bind, gets, vdiv, bind, fdiv, ret, modify.
  fold deltaN dN.
  destruct (Rgt_dec (dN * deltaN) 0) as [Hfwd | Hfwd]; [ | reflexivity ].
  rewrite plane_point_forms. fold i.
  destruct (Rle_dec (length (i -v arg_c f)) (arg_r f)); reflexivity.
Qed.

Lemma intersectDisc_run (S : Type) (s d c nHat : vec3) (r : R)
      (st : S) (lg : divlog) :
  let deltaN := dot (c -v s) nHat in
  let dN := dot d nHat in
  let i := s +v d *v (deltaN / dN) in
  intersectDisc s d c nHat r st lg =
    if Rgt_dec (dN * deltaN) 0 then
      if Rle_dec (length (i -v c)) r
      then ((true, i), st, dN :: dN :: dN :: lg)
      else ((false, s), st, dN :: dN :: dN :: lg)
    else ((false, s), st, lg).
Proof.
  intros deltaN dN i.
  unfold intersectDisc, call, bind, ret.
  rewrite intersectDisc_body_run. simpl.
  fold deltaN dN i.
  disc_cases; reflexivity.
Qed.

Lemma length_nonneg (a : vec3) : 0 <= length a.
Proof. apply sqrt_pos. Qed.

(** Comparing a length with a non-negative bound without the square root. *)
Lemma length_le_sq (a : vec3) (r : R) :
  0 <= r -> (length a <= r <-> dot a a <= r * r).
Proof.
  intros Hr. unfold length. split; intros H.
  - rewrite <- (sqrt_sqrt (dot a a)) by apply dot_self_nonneg.
    pose proof (sqrt_pos (dot a a)). nra.
  - rewrite <- (sqrt_square r) by exact Hr.
    apply sqrt_le_1_alt. exact H.
Qed.

(** Concrete scenario 1 of the specification: the ray from [(5,0,0)] along
    [(-1,0,0)] hits the disc of [main] at its centre. *)
Lemma scenario1_run (S : Type) (st : S) (lg : divlog) :
  intersectDisc (mkVec3 5 0 0) (mkVec3 (-1) 0 0) (mkVec3 3 0 0) (mkVec3 1 0 0) 1 st lg
  = ((true, mkVec3 3 0 0), st, [-1; -1; -1] ++ lg).
Proof.
  rewrite intersectDisc_run.
  assert (HdN : dot (mkVec3 (-1) 0 0) (mkVec3 1 0 0) = -1)
    by (unfold dot; simpl; ring).
  assert (Hdelta : dot (mkVec3 3 0 0 -v mkVec3 5 0 0) (mkVec3 1 0 0) = -2)
    by (unfold dot; simpl; ring).
  rewrite HdN, Hdelta.
  assert (Hi : mkVec3 5 0 0 +v mkVec3 (-1) 0 0 *v (-2 / -1) = mkVec3 3 0 0)
    by (apply vec3_eq; simpl; field).
  rewrite Hi.
  destruct (Rgt_dec (-1 * -2) 0) as [_ | H]; [ | exfalso; apply H; lra ].
  destruct (Rle_dec (length (mkVec3 3 0 0 -v mkVec3 3 0 0)) 1) as [_ | H].
  - reflexivity.
  - exfalso; apply H. apply length_le_sq; [ lra | ].
    unfold dot; simpl; lra.
Qed.

(** ** The disc intersection test *)

(** C1.  For all [s], [d], [c], [nHat] and [r], with
    [deltaN = dot(c - s, nHat)] and [dN = dot(d, nHat)]: the forward branch
    is taken (its three divisions by [dN] are executed) exactly when
    [dN * deltaN > 0]; the call returns [true] exactly when in addition
    [|i - c| <= r] for [i = s + d * (deltaN / dN)], the boundary included;
    and on [true] the point handed back is [i]. *)
Theorem intersectDisc_spec (S : Type) (s d c nHat : vec3) (r : R)
        (st : S) (lg : divlog) :
  let deltaN := dot (c -v s) nHat in
  let dN := dot d nHat in
  let i := s +v d *v (deltaN / dN) in
  let o := intersectDisc s d c nHat r st lg in
  (dN * deltaN > 0 -> divisions o = dN :: dN :: dN :: lg) /\
  (~ dN * deltaN > 0 -> divisions o = lg) /\
  (fst (value o) = true <-> dN * deltaN > 0 /\ length (i -v c) <= r) /\
  (length (i -v c) = r -> dN * deltaN > 0 -> fst (value o) = true) /\
  (fst (value o) = true -> snd (value o) = i).
Proof.
  intros deltaN dN i o. subst o.
  rewrite intersectDisc_run. fold deltaN dN i.
  disc_cases; unfold value, divisions; simpl;
    repeat split; intros; try tauto; try lra; try discriminate.
Qed.

(** C3.  The body of [intersectDisc] assigns to no parameter but [s]:
    [d], [c], [nHat] and [r] end as they started; on [true] the [inout]
    parameter [s] holds the computed intersection point, on [false] it
    holds its value on entry.  For the caller, the call hands back that
    [s] and leaves the caller's own frame as it was. *)
Theorem intersectDisc_frame (S : Type) (s d c nHat : vec3) (r : R)
        (st : S) (lg : divlog) :
  let f := mkDiscFrame s d c nHat r in
  let i := s +v d *v (dot (c -v s) nHat / dot d nHat) in
  let b := intersectDisc_body f lg in
  let o := intersectDisc s d c nHat r st lg in
  (arg_d (frame_of b) = d /\ arg_c (frame_of b) = c /\
   arg_nHat (frame_of b) = nHat /\ arg_r (frame_of b) = r) /\
  (value b = true -> arg_s (frame_of b) = i) /\
  (value b = false -> arg_s (frame_of b) = s) /\
  fst (value o) = value b /\
  snd (value o) = arg_s (frame_of b) /\
  frame_of o = st.
Proof.
  intros f i b o. subst b o.
  rewrite intersectDisc_run, intersectDisc_body_run.
  subst f; simpl. fold i.
  disc_cases; unfold value, frame_of; simpl;
    repeat split; intros; try reflexivity; discriminate.
Qed.

(** C4.  A ray parallel to the disc plane, [dot(d, nHat) = 0]: the call
    returns [false], [s] is handed back as it was, and the log of executed
    divisions is the one on entry: the division by [dN] is not executed. *)
Theorem intersectDisc_parallel (S : Type) (s d c nHat : vec3) (r : R)
        (st : S) (lg : divlog) :
  dot d nHat = 0 ->
  intersectDisc s d c nHat r st lg = ((false, s), st, lg).
Proof.
  intros HdN. rewrite intersectDisc_run. rewrite HdN.
  destruct (Rgt_dec (0 * dot (c -v s) nHat) 0) as [H | _]; [ lra | reflexivity ].
Qed.

Lemma intersectDisc_parallel_witness :
  dot (mkVec3 0 1 0) (mkVec3 1 0 0) = 0 /\
  intersectDisc (mkVec3 5 0 0) (mkVec3 0 1 0) (mkVec3 3 0 0) (mkVec3 1 0 0) 1 tt []
  = ((false, mkVec3 5 0 0), tt, []).
Proof.
  assert (H : dot (mkVec3 0 1 0) (mkVec3 1 0 0) = 0) by (unfold dot; simpl; ring).
  split; [ exact H | ].
  exact (intersectDisc_parallel unit (mkVec3 5 0 0) (mkVec3 0 1 0) (mkVec3 3 0 0)
           (mkVec3 1 0 0) 1 tt [] H).
Defined.

(** C10.  A start point in the disc's supporting plane,
    [dot(c - s, nHat) = 0]: whatever the direction, the call returns
    [false] and hands [s] back as it was. *)
Theorem intersectDisc_start_in_plane (S : Type) (s d c nHat : vec3) (r : R)
        (st : S) (lg : divlog) :
  dot (c -v s) nHat = 0 ->
  intersectDisc s d c nHat r st lg = ((false, s), st, lg).
Proof.
  intros Hdelta. rewrite intersectDisc_run. rewrite Hdelta.
  destruct (Rgt_dec (dot d nHat * 0) 0) as [H | _]; [ lra | reflexivity ].
Qed.

Lemma intersectDisc_start_in_plane_witness :
  dot (mkVec3 3 0 0 -v mkVec3 3 0 0) (mkVec3 1 0 0) = 0 /\
  intersectDisc (mkVec3 3 0 0) (mkVec3 1 0 0) (mkVec3 3 0 0) (mkVec3 1 0 0) 1 tt []
  = ((false, mkVec3 3 0 0), tt, []).
Proof.
  assert (H : dot (mkVec3 3 0 0 -v mkVec3 3 0 0) (mkVec3 1 0 0) = 0)
    by (unfold dot; simpl; ring).
  split; [ exact H | ].
  exact (intersectDisc_start_in_plane unit (mkVec3 3 0 0) (mkVec3 1 0 0)
           (mkVec3 3 0 0) (mkVec3 1 0 0) 1 tt [] H).
Defined.

(** Whatever the input, [intersectDisc] never divides by zero: the
    product test has excluded [dN = 0] when the division is reached. *)
Lemma intersectDisc_divisors_nonzero (S : Type) (s d c nHat : vec3) (r : R)
      (st : S) :
  Forall (fun y => y <> 0) (divisions (intersectDisc s d c nHat r st [])).
Proof.
  rewrite intersectDisc_run.
  destruct (Rgt_dec (dot d nHat * dot (c -v s) nHat) 0) as [Hfwd | Hfwd].
  - assert (Hnz : dot d nHat <> 0) by (intros E; rewrite E in Hfwd; lra).
    destruct (Rle_dec _ r); unfold divisions; simpl;
      repeat constructor; exact Hnz.
  - constructor.
Qed.

(** C6.  When the call returns [true], the point [i] handed back lies in
    the disc's supporting plane, [dot(i - c, nHat) = 0] (exactly, in real
    arithmetic), and within the radius, [|i - c| <= r]. *)
Theorem intersectDisc_hit_point (S : Type) (s d c nHat : vec3) (r : R)
        (st : S) (lg : divlog) :
  fst (value (intersectDisc s d c nHat r st lg)) = true ->
  let i := snd (value (intersectDisc s d c nHat r st lg)) in
  dot (i -v c) nHat = 0 /\ length (i -v c) <= r.
Proof.
  rewrite intersectDisc_run.
  disc_cases; unfold value; simpl; intros Hhit; try discriminate.
  split; [ | exact Hin ].
  assert (Hnz : dot d nHat <> 0) by (intros E; rewrite E in Hfwd; lra).
  rewrite dot_sub_l, dot_add_l, dot_scale_l.
  rewrite dot_sub_l. field. exact Hnz.
Qed.

Lemma intersectDisc_hit_point_witness :
  let o := intersectDisc (mkVec3 5 0 0) (mkVec3 (-1) 0 0) (mkVec3 3 0 0)
             (mkVec3 1 0 0) 1 tt [] in
  fst (value o) = true /\
  dot (snd (value o) -v mkVec3 3 0 0) (mkVec3 1 0 0) = 0 /\
  length (snd (value o) -v mkVec3 3 0 0) <= 1.
Proof.
  assert (H : fst (value (intersectDisc (mkVec3 5 0 0) (mkVec3 (-1) 0 0)
                            (mkVec3 3 0 0) (mkVec3 1 0 0) 1 tt [])) = true)
    by (rewrite scenario1_run; reflexivity).
  split; [ exact H | ].
  exact (intersectDisc_hit_point unit (mkVec3 5 0 0) (mkVec3 (-1) 0 0)
           (mkVec3 3 0 0) (mkVec3 1 0 0) 1 tt [] H).
Defined.

(** C7.  Concrete scenario 3: for the disc of [main] (centre [(3,0,0)],
    normal [(1,0,0)], radius [1]) the ray from [(0,10,0)] along
    [(5,-10,0)] crosses the supporting plane in its forward direction, at
    [(3,4,0)], which is at distance [4 > 1] from the centre, and the call
    returns [false]. *)
Theorem scenario3_no_hit (S : Type) (st : S) (lg : divlog) :
  let s := mkVec3 0 10 0 in
  let d := mkVec3 5 (-10) 0 in
  let c := mkVec3 3 0 0 in
  let nHat := mkVec3 1 0 0 in
  let i := s +v d *v (dot (c -v s) nHat / dot d nHat) in
  dot d nHat * dot (c -v s) nHat > 0 /\
  i = mkVec3 3 4 0 /\
  length (i -v c) = 4 /\
  length (i -v c) > 1 /\
  intersectDisc s d c nHat 1 st lg = ((false, s), st, [5; 5; 5] ++ lg).
Proof.
  intros s d c nHat i.
  assert (HdN : dot d nHat = 5) by (unfold dot; simpl; ring).
  assert (Hdelta : dot (c -v s) nHat = 3) by (unfold dot; simpl; ring).
  assert (Hi : i = mkVec3 3 4 0).
  { subst i. rewrite HdN, Hdelta. apply vec3_eq; simpl; field. }
  assert (Hlen : length (i -v c) = 4).
  { rewrite Hi. unfold length, dot; simpl.
    replace ((3 - 3) * (3 - 3) + (4 - 0) * (4 - 0) + (0 - 0) * (0 - 0))
      with (4 * 4) by ring.
    apply sqrt_square; lra. }
  repeat split;
    [ rewrite HdN, Hdelta; lra | exact Hi | exact Hlen | rewrite Hlen; lra | ].
  rewrite intersectDisc_run. fold i. rewrite Hlen, HdN, Hdelta.
  destruct (Rgt_dec (5 * 3) 0) as [_ | H]; [ | exfalso; apply H; lra ].
  destruct (Rle_dec 4 1) as [H | _]; [ lra | reflexivity ].
Qed.

(** ** Reflection *)

Lemma reflect_formula (d n : vec3) :
  reflect d n = d -v n *v (2 * dot d n).
Proof.
  unfold reflect. rewrite (dot_comm n d). reflexivity.
Qed.

Lemma dot_reflect_unit (d n : vec3) :
  dot n n = 1 -> dot (reflect d n) n = - dot d n.
Proof.
  intros Hn. rewrite reflect_formula, dot_sub_l, dot_scale_l, Hn. ring.
Qed.

(** C8.  About a unit normal, [reflect] is an involution:
    [reflect(reflect(d, nHat), nHat) = d] (exactly, in real arithmetic). *)
Theorem reflect_involutive (d nHat : vec3) :
  dot nHat nHat = 1 ->
  reflect (reflect d nHat) nHat = d.
Proof.
  intros Hn.
  rewrite (reflect_formula (reflect d nHat)), dot_reflect_unit by exact Hn.
  rewrite reflect_formula.
  apply vec3_eq; simpl; ring.
Qed.

Lemma reflect_involutive_witness :
  dot (mkVec3 1 0 0) (mkVec3 1 0 0) = 1 /\
  reflect (reflect (mkVec3 5 (-10) 0) (mkVec3 1 0 0)) (mkVec3 1 0 0)
  = mkVec3 5 (-10) 0.
Proof.
  assert (H : dot (mkVec3 1 0 0) (mkVec3 1 0 0) = 1) by (unfold dot; simpl; ring).
  split; [ exact H | ].
  exact (reflect_involutive (mkVec3 5 (-10) 0) (mkVec3 1 0 0) H).
Defined.

(** ** The background lookup *)

Lemma getColorOfBackground_run (a0 : R) (tex : sampler2D) (S : Type) (d : vec3)
      (st : S) (lg : divlog) :
  getColorOfBackground a0 tex d st lg =
    (texture2D tex (mkVec2 ((atan2 a0 (vz d) (vx d) + PI) / (2 * PI))
                           (1 - acos (vy d / length d) / PI)),
     st, PI :: 2 * PI :: length d :: lg).
Proof. reflexivity. Qed.

Lemma PI_value : PI = 31415926538 / 10000000000.
Proof. unfold PI. lra. Qed.

(** The macro overshoots the constant it stands for: [pi < 3.1415926538].
    The bound comes from the series of [2 atan(1/3) + atan(1/7)]. *)
Lemma pi_lt_PI : pi < PI.
Proof.
  destruct (PI_2_3_7_ineq 5) as [_ Hup].
  apply Rmult_lt_reg_r with (/ 4); [ lra | ].
  eapply Rle_lt_trans; [ exact Hup | ].
  unfold PI, PI_2_3_7_tg, tg_alt, Ratan_seq.
  cbn [sum_f_R0 Nat.mul Nat.add].
  simpl INR. simpl pow.
  lra.
Qed.

(** ... by less than [3e-10]. *)
Lemma PI_minus_pi_small : PI - pi < 3 / 10 ^ 10.
Proof.
  destruct (PI_2_3_7_ineq 5) as [Hlow _].
  apply Rmult_lt_reg_r with (/ 4); [ lra | ].
  apply Rplus_lt_reg_r with (pi * / 4).
  eapply Rlt_le_trans; [ | apply Rplus_le_compat_l; exact Hlow ].
  unfold PI, PI_2_3_7_tg, tg_alt, Ratan_seq.
  cbn [sum_f_R0 Nat.mul Nat.add].
  simpl INR. simpl pow.
  lra.
Qed.

Lemma PI_pos : 0 < PI.
Proof. pose proof pi_lt_PI. pose proof PI_RGT_0. lra. Qed.

Lemma atan_nonpos (x : R) : x <= 0 -> atan x <= 0.
Proof.
  intros [Hx | ->].
  - rewrite <- atan_0. left. apply atan_increasing. exact Hx.
  - rewrite atan_0. lra.
Qed.

Lemma atan_pos (x : R) : 0 < x -> 0 < atan x.
Proof.
  intros Hx. rewrite <- atan_0. apply atan_increasing. exact Hx.
Qed.

(** Away from the origin the two-argument arctangent ranges over
    [(-pi, pi]]; at the origin it is what the implementation returns. *)
Lemma atan2_bound (a0 y x : R) :
  x <> 0 \/ y <> 0 -> - pi < atan2 a0 y x <= pi.
Proof.
  intros Hxy. pose proof PI_RGT_0 as Hpi.
  unfold atan2.
  destruct (Rlt_dec 0 x) as [Hx | Hx].
  - pose proof (atan_bound (y / x)). lra.
  - destruct (Rlt_dec x 0) as [Hx' | Hx'].
    + destruct (Rle_dec 0 y) as [Hy | Hy].
      * pose proof (atan_bound (y / x)).
        assert (y / x <= 0).
        { unfold Rdiv. pose proof (Rinv_lt_0_compat x Hx'). nra. }
        pose proof (atan_nonpos (y / x)). lra.
      * pose proof (atan_bound (y / x)).
        assert (0 < y / x).
        { unfold Rdiv. pose proof (Rinv_lt_0_compat x Hx'). nra. }
        pose proof (atan_pos (y / x)). lra.
    + destruct (Rlt_dec 0 y); [ lra | ].
      destruct (Rlt_dec y 0); [ lra | ].
      exfalso. destruct Hxy; lra.
Qed.

Lemma atan2_origin (a0 : R) : atan2 a0 0 0 = a0.
Proof.
  unfold atan2.
  destruct (Rlt_dec 0 0) as [H | _]; [ lra | reflexivity ].
Qed.

(** The value added to [PI] on line 157 is within [[-PI, PI]] as soon as
    the implementation's value at the origin is. *)
Lemma azimuth_bound (a0 : R) (d : vec3) :
  (vx d = 0 -> vz d = 0 -> - PI <= a0 <= PI) ->
  - PI <= atan2 a0 (vz d) (vx d) <= PI.
Proof.
  intros Hpole. pose proof pi_lt_PI as HPI.
  destruct (Req_dec (vx d) 0) as [Ex | Nx].
  - destruct (Req_dec (vz d) 0) as [Ez | Nz].
    + rewrite Ex, Ez, atan2_origin. apply Hpole; assumption.
    + pose proof (atan2_bound a0 (vz d) (vx d) (or_intror Nz)). lra.
  - pose proof (atan2_bound a0 (vz d) (vx d) (or_introl Nx)). lra.
Qed.

(** The upper end is reached on the negative [x] axis. *)
Lemma atan2_seam (a0 : R) : atan2 a0 0 (-1) = pi.
Proof.
  unfold atan2.
  destruct (Rlt_dec 0 (-1)) as [H | _]; [ lra | ].
  destruct (Rlt_dec (-1) 0) as [_ | H]; [ | lra ].
  destruct (Rle_dec 0 0) as [_ | H]; [ | lra ].
  replace (0 / -1) with 0 by field.
  rewrite atan_0. ring.
Qed.

Lemma length_pos (d : vec3) : d <> mkVec3 0 0 0 -> 0 < length d.
Proof.
  intros Hd. unfold length. apply sqrt_lt_R0.
  destruct (Req_dec (dot d d) 0) as [E | E].
  - exfalso. apply Hd. destruct d as [x y z]. unfold dot in E; simpl in E.
    assert (x = 0) by nra. assert (y = 0) by nra. assert (z = 0) by nra.
    subst. reflexivity.
  - pose proof (dot_self_nonneg d). lra.
Qed.

(** The argument handed to [acos] is a cosine. *)
Lemma cos_polar_bound (d : vec3) :
  d <> mkVec3 0 0 0 -> -1 <= vy d / length d <= 1.
Proof.
  intros Hd. pose proof (length_pos d Hd) as Hl.
  assert (Hsq : vy d * vy d <= length d * length d).
  { unfold length. rewrite sqrt_sqrt by apply dot_self_nonneg.
    unfold dot. nra. }
  assert (Habs : - length d <= vy d <= length d) by nra.
  split.
  - apply Rmult_le_reg_r with (length d); [ exact Hl | ].
    unfold Rdiv. rewrite Rmult_assoc, Rinv_l by lra. lra.
  - apply Rmult_le_reg_r with (length d); [ exact Hl | ].
    unfold Rdiv. rewrite Rmult_assoc, Rinv_l by lra. lra.
Qed.

Lemma quotient_in_unit (x a : R) : 0 < a -> 0 <= x <= a -> 0 <= x / a <= 1.
Proof.
  intros Ha [Hx0 Hxa].
  split; apply Rmult_le_reg_r with a; try exact Ha;
    unfold Rdiv; rewrite Rmult_assoc, Rinv_l by lra; lra.
Qed.

(** C2, as the shader has it.  For every non-zero [d],
    [getColorOfBackground] samples the texture at
    [(phi / (2 PI), 1 - theta / PI)] with [phi = atan(d.z, d.x) + PI] and
    [theta = acos(d.y / |d|)], where [PI] is the macro [3.1415926538];
    no divisor is zero and the argument of [acos] is in [[-1, 1]];
    [phi] lies in the closed range [[0, 2 PI]], [theta] lies in [[0, pi]],
    and both texture coordinates lie in [[0, 1]].  On the vertical axis
    ([d.x = d.z = 0]), where GLSL leaves [atan] undefined, this is so
    whenever the value the implementation returns is in [[-PI, PI]]. *)
Theorem getColorOfBackground_coords (a0 : R) (tex : sampler2D) (S : Type)
        (d : vec3) (st : S) (lg : divlog) :
  d <> mkVec3 0 0 0 ->
  (vx d = 0 -> vz d = 0 -> - PI <= a0 <= PI) ->
  let phi := atan2 a0 (vz d) (vx d) + PI in
  let theta := acos (vy d / length d) in
  let u := phi / (2 * PI) in
  let v := 1 - theta / PI in
  let o := getColorOfBackground a0 tex d st lg in
  value o = texture2D tex (mkVec2 u v) /\
  divisions o = PI :: 2 * PI :: length d :: lg /\
  (PI <> 0 /\ 2 * PI <> 0 /\ length d <> 0) /\
  -1 <= vy d / length d <= 1 /\
  0 <= phi <= 2 * PI /\
  0 <= theta <= pi /\
  0 <= u <= 1 /\ 0 <= v <= 1.
Proof.
  intros Hd Hpole phi theta u v o.
  pose proof pi_lt_PI as HPI. pose proof PI_RGT_0 as Hpi.
  pose proof (azimuth_bound a0 d Hpole) as Hat.
  pose proof (acos_bound (vy d / length d)) as Hac.
  pose proof (length_pos d Hd) as Hl.
  assert (Hphi : 0 <= phi <= 2 * PI) by (subst phi; lra).
  assert (Hu : 0 <= u <= 1) by (apply quotient_in_unit; lra).
  assert (Ht : 0 <= theta / PI <= 1).
  { fold theta in Hac. apply quotient_in_unit; lra. }
  subst o. rewrite getColorOfBackground_run. unfold value, divisions; simpl.
  repeat split; try reflexivity; try (subst v; lra); try exact Hu;
    try apply cos_polar_bound; try exact Hd; try apply Hac; try apply Hphi.
Qed.

Lemma getColorOfBackground_coords_witness :
  let d := mkVec3 0 1 0 in
  let a0 := pi in
  d <> mkVec3 0 0 0 /\
  (vx d = 0 -> vz d = 0 -> - PI <= a0 <= PI) /\
  0 <= atan2 a0 (vz d) (vx d) + PI <= 2 * PI /\
  0 <= acos (vy d / length d) <= pi /\
  0 <= (atan2 a0 (vz d) (vx d) + PI) / (2 * PI) <= 1 /\
  0 <= 1 - acos (vy d / length d) / PI <= 1.
Proof.
  assert (H : mkVec3 0 1 0 <> mkVec3 0 0 0).
  { intros E. apply (f_equal vy) in E. simpl in E. lra. }
  assert (Hpole : vx (mkVec3 0 1 0) = 0 -> vz (mkVec3 0 1 0) = 0 ->
                  - PI <= pi <= PI).
  { intros _ _. pose proof pi_lt_PI. pose proof PI_RGT_0. lra. }
  split; [ exact H | split; [ exact Hpole | ] ].
  exact (proj2 (proj2 (proj2 (proj2
    (getColorOfBackground_coords pi (fun _ => mkVec4 0 0 0 1) unit
       (mkVec3 0 1 0) tt [] H Hpole))))).
Defined.

(** C2, as the specification has it, fails on the seam: for
    [d = (-1, 0, 0)] the two-argument [atan] is at the upper end [pi] of
    its range and the shader computes [phi = pi + PI], which is not in
    [[0, 2 pi)]. *)
Lemma getColorOfBackground_seam :
  let d := mkVec3 (-1) 0 0 in
  d <> mkVec3 0 0 0 /\
  forall a0 : R,
    let phi := atan2 a0 (vz d) (vx d) + PI in
    value (getColorOfBackground a0 (fun uv => mkVec4 (v2x uv) (v2y uv) 0 1) d tt [])
    = mkVec4 (phi / (2 * PI)) (1 - acos (vy d / length d) / PI) 0 1 /\
    phi = pi + PI /\
    ~ (0 <= phi < 2 * pi).
Proof.
  intros d. split.
  - intros E. apply (f_equal vx) in E. simpl in E. lra.
  - intros a0 phi.
    assert (Hphi : phi = pi + PI).
    { subst phi d. cbn [vz vx]. rewrite atan2_seam. reflexivity. }
    split; [ | split ].
    + rewrite getColorOfBackground_run. reflexivity.
    + exact Hphi.
    + rewrite Hphi. pose proof pi_lt_PI. lra.
Qed.

(** Why the vertical axis carries a proviso: there the column read is
    decided by the implementation's value alone. *)
Lemma getColorOfBackground_pole (a0 : R) (tex : sampler2D) (S : Type)
      (y : R) (st : S) (lg : divlog) :
  value (getColorOfBackground a0 tex (mkVec3 0 y 0) st lg)
  = texture2D tex (mkVec2 ((a0 + PI) / (2 * PI))
                          (1 - acos (y / length (mkVec3 0 y 0)) / PI))
  /\ (0 <= (a0 + PI) / (2 * PI) <= 1 <-> - PI <= a0 <= PI).
Proof.
  rewrite getColorOfBackground_run. cbn [vx vy vz]. rewrite atan2_origin.
  split; [ reflexivity | ].
  pose proof PI_pos as HPI.
  split.
  - intros [H0 H1].
    apply (Rmult_le_compat_r (2 * PI)) in H0; [ | lra ].
    apply (Rmult_le_compat_r (2 * PI)) in H1; [ | lra ].
    unfold Rdiv in H0, H1.
    rewrite Rmult_assoc, Rinv_l in H0, H1 by lra. lra.
  - intros H. apply quotient_in_unit; lra.
Qed.

(** ** The per-pixel program *)

(** The outcome of the disc test depends on neither the caller's frame
    nor the log. *)
Lemma intersectDisc_value (S : Type) (s d c nHat : vec3) (r : R)
      (st : S) (lg : divlog) :
  value (intersectDisc s d c nHat r st lg) = disc_test s d c nHat r.
Proof.
  unfold disc_test. rewrite !intersectDisc_run.
  disc_cases; reflexivity.
Qed.

(** One run of [main], from any frame: every local is written before it
    is read. *)
Lemma main_run (a0 : R) (tex : sampler2D) (cam ip : vec3) (st : mainFrame) (lg : divlog) :
  let d := ip -v cam in
  let nHat := mkVec3 1 0 0 in
  let t := disc_test cam d (mkVec3 3 0 0) nHat 1 in
  let d' := if fst t then reflect d nHat else d in
  frame_of (main a0 tex cam ip st lg)
  = mkMainFrame (snd t) d' nHat (value (getColorOfBackground a0 tex d' tt [])).
Proof.
  intros d nHat t d'. subst t d'.
  rewrite <- (intersectDisc_value mainFrame cam d (mkVec3 3 0 0) nHat 1
                (set_loc_nHat nHat (set_loc_d d (set_loc_s cam st))) lg).
  unfold main, bind, modify, gets, ret. cbn [loc_s loc_d loc_nHat set_loc_s set_loc_d set_loc_nHat].
  fold d nHat.
  rewrite intersectDisc_run.
  disc_cases; reflexivity.
Qed.

(** Concrete scenario 1 through [main]: camera at [(5,0,0)] looking along
    [(-1,0,0)]; the ray is moved to the disc centre and turned back. *)
Example scenario1_main (a0 : R) (tex : sampler2D) (st : mainFrame) (lg : divlog) :
  let o := main a0 tex (mkVec3 5 0 0) (mkVec3 4 0 0) st lg in
  loc_s (frame_of o) = mkVec3 3 0 0 /\ loc_d (frame_of o) = mkVec3 1 0 0.
Proof.
  intros o. subst o. rewrite main_run.
  replace (mkVec3 4 0 0 -v mkVec3 5 0 0) with (mkVec3 (-1) 0 0)
    by (apply vec3_eq; simpl; ring).
  rewrite <- (intersectDisc_value unit _ _ _ _ _ tt []), scenario1_run.
  cbn [value fst snd loc_s loc_d].
  split; [ reflexivity | ].
  apply vec3_eq; unfold reflect, dot; simpl; ring.
Qed.

(** Concrete scenario 2 through [main]: camera at [(5,0,0)] looking along
    [(0,1,0)], parallel to the disc; no hit, and the texture is read on
    the row [1 - acos(1) / PI = 1]. *)
Example scenario2_main (a0 : R) (st : mainFrame) (lg : divlog) :
  let o := main a0 (fun uv => mkVec4 (v2x uv) (v2y uv) 0 1)
             (mkVec3 5 0 0) (mkVec3 5 1 0) st lg in
  loc_s (frame_of o) = mkVec3 5 0 0 /\
  loc_d (frame_of o) = mkVec3 5 1 0 -v mkVec3 5 0 0 /\
  cg (gl_FragColor (frame_of o)) = 1.
Proof.
  intros o. subst o. rewrite main_run.
  rewrite <- (intersectDisc_value unit _ _ _ _ _ tt []), intersectDisc_run.
  assert (HdN : dot (mkVec3 5 1 0 -v mkVec3 5 0 0) (mkVec3 1 0 0) = 0)
    by (unfold dot; simpl; ring).
  rewrite HdN.
  destruct (Rgt_dec (0 * _) 0) as [H | _]; [ lra | ].
  cbn [value fst snd loc_s loc_d gl_FragColor].
  repeat split.
  rewrite getColorOfBackground_run. cbn [value fst texture2D cg v2y].
  assert (Hl : length (mkVec3 5 1 0 -v mkVec3 5 0 0) = 1).
  { unfold length, dot; simpl.
    replace ((5 - 5) * (5 - 5) + (1 - 0) * (1 - 0) + (0 - 0) * (0 - 0))
      with 1 by ring.
    apply sqrt_1. }
  rewrite Hl. cbn [vy vsub].
  replace ((1 - 0) / 1) with 1 by field.
  rewrite acos_1. unfold Rdiv. ring.
Qed.

Lemma dot_reflect_self (d n : vec3) :
  dot n n = 1 -> dot (reflect d n) (reflect d n) = dot d d.
Proof.
  intros Hn. rewrite reflect_formula.
  transitivity (dot d d - 4 * dot d n * dot d n
                + 4 * dot d n * dot d n * dot n n).
  - unfold dot; simpl; ring.
  - rewrite Hn. ring.
Qed.

(** C5.  With [d = intersectionPoint - cameraPosition] and the disc of
    [main]: when the disc test accepts, [main] ends with [d] replaced by
    [d - 2 (d . nHat) nHat]; when it rejects, [d] is as it was.  In both
    cases the final [d] has the magnitude of the original one (nothing
    normalises it), and [gl_FragColor] is the background colour looked up
    along the final [d]. *)
Theorem main_reflects_on_hit (a0 : R) (tex : sampler2D) (cam ip : vec3)
        (st : mainFrame) (lg : divlog) :
  let d := ip -v cam in
  let nHat := mkVec3 1 0 0 in
  let hit := fst (disc_test cam d (mkVec3 3 0 0) nHat 1) in
  let o := main a0 tex cam ip st lg in
  let d' := loc_d (frame_of o) in
  (hit = true -> d' = d -v nHat *v (2 * dot d nHat)) /\
  (hit = false -> d' = d) /\
  dot d' d' = dot d d /\
  gl_FragColor (frame_of o) = value (getColorOfBackground a0 tex d' tt []).
Proof.
  intros d nHat hit o d'. subst d' o.
  rewrite main_run. fold d nHat hit. cbn [loc_d gl_FragColor].
  assert (Hn : dot nHat nHat = 1) by (unfold dot; simpl; ring).
  destruct hit; repeat split; intros; try discriminate; try reflexivity.
  - apply reflect_formula.
  - apply dot_reflect_self. exact Hn.
Qed.

(** C9.  The frame [main] ends with, and so the colour it emits, is a
    function of the texture, the camera position and the interpolated
    position alone: two runs on the same inputs agree whatever the frames
    and logs they start from, so nothing an earlier run left behind is
    read. *)
Theorem main_pure (a0 : R) (tex : sampler2D) (cam ip : vec3)
        (st1 st2 : mainFrame) (lg1 lg2 : divlog) :
  frame_of (main a0 tex cam ip st1 lg1) = frame_of (main a0 tex cam ip st2 lg2) /\
  gl_FragColor (frame_of (main a0 tex cam ip st1 lg1))
  = gl_FragColor (frame_of (main a0 tex cam ip st2 lg2)).
Proof.
  rewrite !main_run. split; reflexivity.
Qed.

(** ** Further properties of the disc test *)

(** On the forward branch the ray parameter [deltaN / dN] is positive. *)
Lemma forward_parameter_pos (dN deltaN : R) :
  dN * deltaN > 0 -> dN <> 0 /\ 0 < deltaN / dN.
Proof.
  intros Hfwd.
  assert (Hnz : dN <> 0) by (intros E; rewrite E in Hfwd; lra).
  split; [ exact Hnz | ].
  replace (deltaN / dN) with (dN * deltaN * (/ dN * / dN)) by (field; exact Hnz).
  apply Rmult_lt_0_compat; [ lra | ].
  replace (/ dN * / dN) with (Rsqr (/ dN)) by reflexivity.
  apply Rlt_0_sqr. apply Rinv_neq_0_compat. exact Hnz.
Qed.

(** A point of the ray lies in the disc plane exactly at the parameter
    [deltaN / dN]. *)
Lemma plane_parameter (s d c nHat : vec3) (t : R) :
  dot d nHat <> 0 ->
  dot (s +v d *v t -v c) nHat = 0 ->
  t = dot (c -v s) nHat / dot d nHat.
Proof.
  intros Hnz Hpl.
  rewrite dot_sub_l, dot_add_l, dot_scale_l in Hpl.
  rewrite dot_sub_l. field_simplify_eq; [ lra | exact Hnz ].
Qed.

(** X1.  The test accepts exactly when the ray is not parallel to the disc
    plane and its forward half-line [s + t d], [t > 0], meets the plane at
    a point within [r] of the centre; on acceptance the point handed back
    is that point of the half-line. *)
Theorem intersectDisc_meets_disc (S : Type) (s d c nHat : vec3) (r : R)
        (st : S) (lg : divlog) :
  let o := intersectDisc s d c nHat r st lg in
  let on_disc t :=
    0 < t /\ dot (s +v d *v t -v c) nHat = 0 /\ length (s +v d *v t -v c) <= r in
  (fst (value o) = true <-> dot d nHat <> 0 /\ exists t, on_disc t) /\
  (fst (value o) = true -> exists t, on_disc t /\ snd (value o) = s +v d *v t).
Proof.
  intros o on_disc. subst o on_disc.
  pose proof (intersectDisc_run S s d c nHat r st lg) as Hrun.
  cbv zeta in Hrun. rewrite Hrun. clear Hrun.
  set (dN := dot d nHat). set (deltaN := dot (c -v s) nHat).
  set (i := s +v d *v (deltaN / dN)).
  assert (Hpl : dN <> 0 -> dot (i -v c) nHat = 0).
  { intros Hnz. subst i. rewrite dot_sub_l, dot_add_l, dot_scale_l.
    fold dN. unfold deltaN. rewrite dot_sub_l. field. exact Hnz. }
  assert (Hback : dN <> 0 ->
            (exists t, 0 < t /\ dot (s +v d *v t -v c) nHat = 0 /\
                       length (s +v d *v t -v c) <= r) ->
            dN * deltaN > 0 /\ length (i -v c) <= r).
  { intros Hnz [t [Ht [Hin Hlen]]].
    pose proof (plane_parameter s d c nHat t Hnz Hin) as Et.
    fold dN deltaN in Et.
    assert (EdeltaN : deltaN = dN * t) by (rewrite Et; field; exact Hnz).
    split.
    - rewrite EdeltaN.
      replace (dN * (dN * t)) with (Rsqr dN * t) by (unfold Rsqr; ring).
      apply Rmult_lt_0_compat; [ apply Rlt_0_sqr; exact Hnz | exact Ht ].
    - subst i. rewrite <- Et. exact Hlen. }
  disc_cases; unfold value; simpl.
  - destruct (forward_parameter_pos dN deltaN Hfwd) as [Hnz Ht].
    split; [ split | ].
    + intros _. split; [ exact Hnz | ].
      exists (deltaN / dN). fold i. auto.
    + reflexivity.
    + intros _. exists (deltaN / dN). fold i. auto.
  - destruct (forward_parameter_pos dN deltaN Hfwd) as [Hnz Ht].
    split; [ split | ]; try discriminate.
    intros [_ Hex]. destruct (Hback Hnz Hex) as [_ Hlen]. contradiction.
  - split; [ split | ]; try discriminate.
    intros [Hnz Hex]. destruct (Hback Hnz Hex) as [Hpos _]. contradiction.
Qed.

(** X2.  The start point handed back differs from the one passed in
    exactly when the test accepts: a hit always moves the ray. *)
Theorem intersectDisc_moves_iff_hit (S : Type) (s d c nHat : vec3) (r : R)
        (st : S) (lg : divlog) :
  let o := intersectDisc s d c nHat r st lg in
  snd (value o) = s <-> fst (value o) = false.
Proof.
  intros o. subst o.
  pose proof (intersectDisc_run S s d c nHat r st lg) as Hrun.
  cbv zeta in Hrun. rewrite Hrun. clear Hrun.
  disc_cases; unfold value; simpl; try tauto.
  split; [ | discriminate ].
  intros E. exfalso.
  destruct (forward_parameter_pos _ _ Hfwd) as [Hnz Ht].
  set (t := dot (c -v s) nHat / dot d nHat) in *.
  apply (f_equal (fun p => dot (p -v s) nHat)) in E.
  rewrite !dot_sub_l, dot_add_l, dot_scale_l in E.
  assert (Ez : dot d nHat * t = 0) by lra.
  apply Rmult_integral in Ez. destruct Ez; lra.
Qed.

(** Two runs whose tests agree and whose plane points agree return the
    same value. *)
Lemma intersectDisc_value_ext (S : Type) (s d1 d2 c1 c2 n1 n2 : vec3)
      (r1 r2 : R) (st : S) (lg : divlog) :
  let i1 := s +v d1 *v (dot (c1 -v s) n1 / dot d1 n1) in
  let i2 := s +v d2 *v (dot (c2 -v s) n2 / dot d2 n2) in
  (dot d1 n1 * dot (c1 -v s) n1 > 0 <-> dot d2 n2 * dot (c2 -v s) n2 > 0) ->
  (dot d1 n1 * dot (c1 -v s) n1 > 0 -> i1 = i2) ->
  (dot d1 n1 * dot (c1 -v s) n1 > 0 ->
   (length (i1 -v c1) <= r1 <-> length (i2 -v c2) <= r2)) ->
  value (intersectDisc s d1 c1 n1 r1 st lg)
  = value (intersectDisc s d2 c2 n2 r2 st lg).
Proof.
  intros i1 i2 Hfw Hi Hlen.
  pose proof (intersectDisc_run S s d1 c1 n1 r1 st lg) as H1.
  pose proof (intersectDisc_run S s d2 c2 n2 r2 st lg) as H2.
  cbv zeta in H1, H2. rewrite H1, H2. clear H1 H2. fold i1 i2.
  destruct (Rgt_dec (dot d1 n1 * dot (c1 -v s) n1) 0) as [F1 | F1];
    destruct (Rgt_dec (dot d2 n2 * dot (c2 -v s) n2) 0) as [F2 | F2];
    try (exfalso; tauto); try reflexivity.
  specialize (Hi F1). specialize (Hlen F1).
  destruct (Rle_dec (length (i1 -v c1)) r1) as [L1 | L1];
    destruct (Rle_dec (length (i2 -v c2)) r2) as [L2 | L2];
    try (exfalso; tauto); unfold value; simpl; try rewrite Hi; reflexivity.
Qed.

(** X4.  Only the direction of [d] matters: stretching [d] by a positive
    factor changes neither the result nor the point handed back. *)
Theorem intersectDisc_direction_scale (S : Type) (s d c nHat : vec3) (r k : R)
        (st : S) (lg : divlog) :
  0 < k ->
  value (intersectDisc s (d *v k) c nHat r st lg)
  = value (intersectDisc s d c nHat r st lg).
Proof.
  intros Hk.
  assert (HdN : dot (d *v k) nHat = dot d nHat * k) by apply dot_scale_l.
  assert (Hfw : dot (d *v k) nHat * dot (c -v s) nHat > 0
                <-> dot d nHat * dot (c -v s) nHat > 0).
  { rewrite HdN. split; intros H; nra. }
  assert (Hi : dot (d *v k) nHat * dot (c -v s) nHat > 0 ->
               s +v d *v k *v (dot (c -v s) nHat / dot (d *v k) nHat)
               = s +v d *v (dot (c -v s) nHat / dot d nHat)).
  { intros F. apply Hfw in F.
    destruct (forward_parameter_pos _ _ F) as [Hnz _].
    rewrite HdN. apply vec3_eq; simpl; field; split; lra. }
  apply intersectDisc_value_ext; [ exact Hfw | exact Hi | ].
  intros F. rewrite (Hi F). tauto.
Qed.

Lemma intersectDisc_direction_scale_witness :
  0 < 2 /\
  value (intersectDisc (mkVec3 5 0 0) (mkVec3 (-1) 0 0 *v 2) (mkVec3 3 0 0)
           (mkVec3 1 0 0) 1 tt [])
  = value (intersectDisc (mkVec3 5 0 0) (mkVec3 (-1) 0 0) (mkVec3 3 0 0)
             (mkVec3 1 0 0) 1 tt []).
Proof.
  assert (H : 0 < 2) by lra.
  split; [ exact H | ].
  exact (intersectDisc_direction_scale unit (mkVec3 5 0 0) (mkVec3 (-1) 0 0)
           (mkVec3 3 0 0) (mkVec3 1 0 0) 1 2 tt [] H).
Defined.

(** X5.  The normal need not be normalised, nor point to a particular
    side: replacing [nHat] by any non-zero multiple of it, negative ones
    included, changes neither the result nor the point handed back. *)
Theorem intersectDisc_normal_scale (S : Type) (s d c nHat : vec3) (r k : R)
        (st : S) (lg : divlog) :
  k <> 0 ->
  value (intersectDisc s d c (nHat *v k) r st lg)
  = value (intersectDisc s d c nHat r st lg).
Proof.
  intros Hk.
  assert (Hdot : forall a, dot a (nHat *v k) = dot a nHat * k)
    by (intros a; unfold dot; simpl; ring).
  assert (Hkk : 0 < k * k) by nra.
  assert (Hfw : dot d (nHat *v k) * dot (c -v s) (nHat *v k) > 0
                <-> dot d nHat * dot (c -v s) nHat > 0).
  { rewrite !Hdot. split; intros H; nra. }
  assert (Hi : dot d (nHat *v k) * dot (c -v s) (nHat *v k) > 0 ->
               s +v d *v (dot (c -v s) (nHat *v k) / dot d (nHat *v k))
               = s +v d *v (dot (c -v s) nHat / dot d nHat)).
  { intros F. apply Hfw in F.
    destruct (forward_parameter_pos _ _ F) as [Hnz _].
    rewrite !Hdot. apply vec3_eq; simpl; field; split; lra. }
  apply intersectDisc_value_ext; [ exact Hfw | exact Hi | ].
  intros F. rewrite (Hi F). tauto.
Qed.

Lemma intersectDisc_normal_scale_witness :
  -3 <> 0 /\
  value (intersectDisc (mkVec3 5 0 0) (mkVec3 (-1) 0 0) (mkVec3 3 0 0)
           (mkVec3 1 0 0 *v -3) 1 tt [])
  = value (intersectDisc (mkVec3 5 0 0) (mkVec3 (-1) 0 0) (mkVec3 3 0 0)
             (mkVec3 1 0 0) 1 tt []).
Proof.
  assert (H : -3 <> 0) by lra.
  split; [ exact H | ].
  exact (intersectDisc_normal_scale unit (mkVec3 5 0 0) (mkVec3 (-1) 0 0)
           (mkVec3 3 0 0) (mkVec3 1 0 0) 1 (-3) tt [] H).
Defined.

(** X6.  The test sees the scene only relative to the ray start: moving
    the start point and the disc centre by the same vector leaves the
    result as it was and moves the point handed back by that vector. *)
Theorem intersectDisc_translate (S : Type) (s d c nHat v : vec3) (r : R)
        (st : S) (lg : divlog) :
  let o := intersectDisc s d c nHat r st lg in
  let o' := intersectDisc (s +v v) d (c +v v) nHat r st lg in
  fst (value o') = fst (value o) /\ snd (value o') = snd (value o) +v v.
Proof.
  intros o o'. subst o o'.
  pose proof (intersectDisc_run S s d c nHat r st lg) as H1.
  pose proof (intersectDisc_run S (s +v v) d (c +v v) nHat r st lg) as H2.
  cbv zeta in H1, H2. rewrite H1, H2. clear H1 H2.
  assert (Hdelta : dot (c +v v -v (s +v v)) nHat = dot (c -v s) nHat)
    by (unfold dot; simpl; ring).
  rewrite Hdelta.
  set (t := dot (c -v s) nHat / dot d nHat).
  assert (Hrel : s +v v +v d *v t -v (c +v v) = s +v d *v t -v c)
    by (apply vec3_eq; simpl; ring).
  rewrite Hrel.
  disc_cases; unfold value; simpl; split; try reflexivity.
  apply vec3_eq; simpl; ring.
Qed.

(** X7.  A larger disc keeps every hit: when the test accepts with radius
    [r], it accepts with any radius [r' >= r] and hands back the same
    point. *)
Theorem intersectDisc_radius_mono (S : Type) (s d c nHat : vec3) (r r' : R)
        (st : S) (lg : divlog) :
  r <= r' ->
  fst (value (intersectDisc s d c nHat r st lg)) = true ->
  value (intersectDisc s d c nHat r' st lg)
  = value (intersectDisc s d c nHat r st lg).
Proof.
  intros Hr.
  pose proof (intersectDisc_run S s d c nHat r st lg) as H1.
  pose proof (intersectDisc_run S s d c nHat r' st lg) as H2.
  cbv zeta in H1, H2. rewrite H1, H2. clear H1 H2.
  disc_cases; unfold value; simpl; intros Hhit; try discriminate.
  destruct (Rle_dec _ r') as [_ | H]; [ reflexivity | lra ].
Qed.

Lemma intersectDisc_radius_mono_witness :
  1 <= 2 /\
  fst (value (intersectDisc (mkVec3 5 0 0) (mkVec3 (-1) 0 0) (mkVec3 3 0 0)
                (mkVec3 1 0 0) 1 tt [])) = true /\
  value (intersectDisc (mkVec3 5 0 0) (mkVec3 (-1) 0 0) (mkVec3 3 0 0)
           (mkVec3 1 0 0) 2 tt [])
  = value (intersectDisc (mkVec3 5 0 0) (mkVec3 (-1) 0 0) (mkVec3 3 0 0)
             (mkVec3 1 0 0) 1 tt []).
Proof.
  assert (Hr : 1 <= 2) by lra.
  assert (H : fst (value (intersectDisc (mkVec3 5 0 0) (mkVec3 (-1) 0 0)
                            (mkVec3 3 0 0) (mkVec3 1 0 0) 1 tt [])) = true)
    by (rewrite scenario1_run; reflexivity).
  split; [ exact Hr | split; [ exact H | ] ].
  exact (intersectDisc_radius_mono unit (mkVec3 5 0 0) (mkVec3 (-1) 0 0)
           (mkVec3 3 0 0) (mkVec3 1 0 0) 1 2 tt [] Hr H).
Defined.

(** X8.  A disc of negative radius is never hit: the distance compared
    with [r] is a length, and the start point stays. *)
Theorem intersectDisc_negative_radius (S : Type) (s d c nHat : vec3) (r : R)
        (st : S) (lg : divlog) :
  r < 0 ->
  value (intersectDisc s d c nHat r st lg) = (false, s).
Proof.
  intros Hr.
  pose proof (intersectDisc_run S s d c nHat r st lg) as Hrun.
  cbv zeta in Hrun. rewrite Hrun. clear Hrun.
  disc_cases; try reflexivity.
  pose proof (length_nonneg (s +v d *v (dot (c -v s) nHat / dot d nHat) -v c)).
  lra.
Qed.

Lemma intersectDisc_negative_radius_witness :
  -1 < 0 /\
  value (intersectDisc (mkVec3 5 0 0) (mkVec3 (-1) 0 0) (mkVec3 3 0 0)
           (mkVec3 1 0 0) (-1) tt [])
  = (false, mkVec3 5 0 0).
Proof.
  assert (H : -1 < 0) by lra.
  split; [ exact H | ].
  exact (intersectDisc_negative_radius unit (mkVec3 5 0 0) (mkVec3 (-1) 0 0)
           (mkVec3 3 0 0) (mkVec3 1 0 0) (-1) tt [] H).
Defined.

(** X9.  Whatever its arguments, a call of [intersectDisc] adds to the
    log of executed divisions either nothing or three divisions by one
    non-zero divisor: it never divides by zero. *)
Theorem intersectDisc_never_divides_by_zero (S : Type) (s d c nHat : vec3)
        (r : R) (st : S) (lg : divlog) :
  exists new,
    divisions (intersectDisc s d c nHat r st lg) = new ++ lg /\
    Forall (fun y => y <> 0) new /\
    (new = [] \/ new = [dot d nHat; dot d nHat; dot d nHat]).
Proof.
  pose proof (intersectDisc_run S s d c nHat r st lg) as Hrun.
  cbv zeta in Hrun. rewrite Hrun. clear Hrun.
  disc_cases; unfold divisions; simpl.
  1, 2: destruct (forward_parameter_pos _ _ Hfwd) as [Hnz _];
        exists [dot d nHat; dot d nHat; dot d nHat];
        repeat split; [ repeat constructor; exact Hnz | right; reflexivity ].
  exists []. repeat split; [ constructor | left; reflexivity ].
Qed.

(** ** Further properties of the background lookup *)

Lemma vec3_eq_dec (a b : vec3) : a = b \/ a <> b.
Proof.
  destruct a as [x y z], b as [x' y' z'].
  destruct (Req_dec x x') as [-> | Hx];
    [ destruct (Req_dec y y') as [-> | Hy];
      [ destruct (Req_dec z z') as [-> | Hz]; [ left; reflexivity | ] | ] | ];
    right; intros E; inversion E; contradiction.
Qed.

Lemma length_zero : length (mkVec3 0 0 0) = 0.
Proof.
  unfold length, dot; simpl.
  replace (0 * 0 + 0 * 0 + 0 * 0) with 0 by ring. apply sqrt_0.
Qed.

Lemma length_zero_iff (d : vec3) : length d = 0 <-> d = mkVec3 0 0 0.
Proof.
  split.
  - intros Hl. destruct (vec3_eq_dec d (mkVec3 0 0 0)) as [E | Hd]; [ exact E | ].
    pose proof (length_pos d Hd). lra.
  - intros ->. apply length_zero.
Qed.

(** X10.  The lookup divides by zero exactly for the zero vector: its
    three divisors are [|d|], [2 PI] and [PI], and only the first can
    vanish. *)
Theorem getColorOfBackground_zero_division (a0 : R) (tex : sampler2D) (S : Type)
        (d : vec3) (st : S) :
  In 0 (divisions (getColorOfBackground a0 tex d st [])) <-> d = mkVec3 0 0 0.
Proof.
  rewrite getColorOfBackground_run. unfold divisions; simpl.
  pose proof PI_pos as HPI.
  rewrite <- length_zero_iff.
  split.
  - intros [H | [H | [H | []]]]; [ lra | lra | exact H ].
  - intros H. right. right. left. exact H.
Qed.

Lemma length_scale (d : vec3) (k : R) : 0 <= k -> length (d *v k) = length d * k.
Proof.
  intros Hk. unfold length.
  replace (dot (d *v k) (d *v k)) with (dot d d * (k * k))
    by (unfold dot; simpl; ring).
  rewrite sqrt_mult_alt by apply dot_self_nonneg.
  rewrite sqrt_square by exact Hk. reflexivity.
Qed.

Lemma atan2_scale (a0 y x k : R) :
  0 < k -> atan2 a0 (y * k) (x * k) = atan2 a0 y x.
Proof.
  intros Hk. unfold atan2.
  assert (Hq : x <> 0 -> y * k / (x * k) = y / x) by (intros; field; lra).
  destruct (Rlt_dec 0 (x * k)) as [H1 | H1]; destruct (Rlt_dec 0 x) as [H2 | H2];
    try (exfalso; nra).
  - rewrite Hq by lra. reflexivity.
  - destruct (Rlt_dec (x * k) 0) as [H3 | H3]; destruct (Rlt_dec x 0) as [H4 | H4];
      try (exfalso; nra).
    + rewrite Hq by lra.
      destruct (Rle_dec 0 (y * k)) as [H5 | H5]; destruct (Rle_dec 0 y) as [H6 | H6];
        try (exfalso; nra); reflexivity.
    + destruct (Rlt_dec 0 (y * k)) as [H5 | H5]; destruct (Rlt_dec 0 y) as [H6 | H6];
        try (exfalso; nra); try reflexivity.
      destruct (Rlt_dec (y * k) 0) as [H7 | H7]; destruct (Rlt_dec y 0) as [H8 | H8];
        try (exfalso; nra); reflexivity.
Qed.

(** X11.  The colour looked up depends on the direction of [d] only, not
    on its magnitude: stretching [d] by a positive factor gives the same
    texel, so [main] has no need to normalise [d]. *)
Theorem getColorOfBackground_scale (a0 : R) (tex : sampler2D) (S : Type) (d : vec3)
        (k : R) (st : S) (lg : divlog) :
  0 < k ->
  value (getColorOfBackground a0 tex (d *v k) st lg)
  = value (getColorOfBackground a0 tex d st lg).
Proof.
  intros Hk. rewrite !getColorOfBackground_run. unfold value; simpl.
  rewrite atan2_scale by exact Hk.
  rewrite length_scale by lra.
  destruct (vec3_eq_dec d (mkVec3 0 0 0)) as [-> | Hd].
  - simpl. rewrite length_zero. unfold Rdiv. rewrite !Rmult_0_l. reflexivity.
  - pose proof (length_pos d Hd).
    replace (vy d * k / (length d * k)) with (vy d / length d) by (field; lra).
    reflexivity.
Qed.

Lemma getColorOfBackground_scale_witness :
  0 < 3 /\
  value (getColorOfBackground 0 (fun uv => mkVec4 (v2x uv) (v2y uv) 0 1)
           (mkVec3 1 2 2 *v 3) tt [])
  = value (getColorOfBackground 0 (fun uv => mkVec4 (v2x uv) (v2y uv) 0 1)
             (mkVec3 1 2 2) tt []).
Proof.
  assert (H : 0 < 3) by lra.
  split; [ exact H | ].
  exact (getColorOfBackground_scale 0 (fun uv => mkVec4 (v2x uv) (v2y uv) 0 1)
           unit (mkVec3 1 2 2) 3 tt [] H).
Defined.

(** The two-argument arctangent recovers the angle of a point given in
    polar form. *)
Lemma atan2_polar (a0 rho a : R) :
  0 < rho -> - pi < a <= pi -> atan2 a0 (rho * sin a) (rho * cos a) = a.
Proof.
  intros Hrho [Hlo Hhi]. pose proof PI_RGT_0 as Hpi.
  assert (Hshift : forall b, sin (b + pi) = - sin b /\ cos (b + pi) = - cos b)
    by (intros b; split; [ apply neg_sin | apply neg_cos ]).
  unfold atan2.
  destruct (Rlt_dec a (- (pi / 2))) as [Hv | Hv].
  - (* third quadrant *)
    set (b := a + pi).
    destruct (Hshift a) as [Hs Hc]. fold b in Hs, Hc.
    assert (Hcb : 0 < cos b) by (apply cos_gt_0; unfold b; lra).
    assert (Hsb : 0 < sin b) by (apply sin_gt_0; unfold b; lra).
    destruct (Rlt_dec 0 (rho * cos a)) as [H | _]; [ exfalso; nra | ].
    destruct (Rlt_dec (rho * cos a) 0) as [_ | H]; [ | exfalso; nra ].
    destruct (Rle_dec 0 (rho * sin a)) as [H | _]; [ exfalso; nra | ].
    replace (rho * sin a / (rho * cos a)) with (tan b)
      by (unfold tan; rewrite Hs, Hc; field; split; lra).
    rewrite atan_tan by (unfold b; lra). unfold b; ring.
  - destruct (Req_dec a (- (pi / 2))) as [-> | Hiii].
    + rewrite sin_neg, cos_neg, sin_PI2, cos_PI2, Rmult_0_r.
      destruct (Rlt_dec 0 0) as [H | _]; [ lra | ].
      destruct (Rlt_dec 0 (rho * _)) as [H | _]; [ lra | ].
      destruct (Rlt_dec (rho * _) 0) as [_ | H]; [ reflexivity | lra ].
    + destruct (Rlt_dec a (pi / 2)) as [Hi | Hi].
      * (* right half-plane *)
        assert (Hc : 0 < cos a) by (apply cos_gt_0; lra).
        destruct (Rlt_dec 0 (rho * cos a)) as [_ | H]; [ | exfalso; nra ].
        replace (rho * sin a / (rho * cos a)) with (tan a)
          by (unfold tan; field; split; lra).
        apply atan_tan. lra.
      * destruct (Req_dec a (pi / 2)) as [-> | Hii].
        -- rewrite sin_PI2, cos_PI2, Rmult_0_r, Rmult_1_r.
           destruct (Rlt_dec 0 0) as [H | _]; [ lra | ].
           destruct (Rlt_dec 0 rho) as [_ | H]; [ reflexivity | lra ].
        -- (* second quadrant and the seam *)
           set (b := a - pi).
           destruct (Hshift b) as [Hs Hc].
           replace (b + pi) with a in Hs, Hc by (unfold b; ring).
           assert (Hcb : 0 < cos b) by (apply cos_gt_0; unfold b; lra).
           assert (Hsa : 0 <= sin a) by (apply sin_ge_0; lra).
           destruct (Rlt_dec 0 (rho * cos a)) as [H | _]; [ exfalso; nra | ].
           destruct (Rlt_dec (rho * cos a) 0) as [_ | H]; [ | exfalso; nra ].
           destruct (Rle_dec 0 (rho * sin a)) as [_ | H]; [ | exfalso; nra ].
           replace (rho * sin a / (rho * cos a)) with (tan b)
             by (unfold tan; rewrite Hs, Hc; field; split; lra).
           rewrite atan_tan by (unfold b; lra). unfold b; ring.
Qed.

(** X12.  The lookup is the equirectangular map.  For the direction with
    azimuth [a] in [(-pi, pi]] about the [y] axis, polar angle [theta] in
    [(0, pi)] from it and any magnitude [rho > 0], the texture is read at
    [((a + PI) / (2 PI), 1 - theta / PI)]: the column is affine in the
    azimuth, the row in the polar angle. *)
Theorem getColorOfBackground_equirectangular (a0 : R) (tex : sampler2D) (S : Type)
        (rho theta a : R) (st : S) (lg : divlog) :
  0 < rho -> 0 < theta < pi -> - pi < a <= pi ->
  let d := mkVec3 (rho * sin theta * cos a) (rho * cos theta)
                  (rho * sin theta * sin a) in
  value (getColorOfBackground a0 tex d st lg)
  = texture2D tex (mkVec2 ((a + PI) / (2 * PI)) (1 - theta / PI)).
Proof.
  intros Hrho [Ht0 Ht1] Ha d.
  rewrite getColorOfBackground_run. unfold value; simpl.
  assert (Hst : 0 < sin theta) by (apply sin_gt_0; lra).
  assert (Hlen : length d = rho).
  { unfold length, dot, d; simpl.
    pose proof (sin2_cos2 theta) as Ht. pose proof (sin2_cos2 a) as Haa.
    unfold Rsqr in Ht, Haa.
    replace (rho * sin theta * cos a * (rho * sin theta * cos a)
             + rho * cos theta * (rho * cos theta)
             + rho * sin theta * sin a * (rho * sin theta * sin a))
      with (rho * rho * (sin theta * sin theta * (sin a * sin a + cos a * cos a)
                         + cos theta * cos theta)) by ring.
    rewrite Haa, Rmult_1_r, Ht, Rmult_1_r.
    apply sqrt_square. lra. }
  fold d. rewrite Hlen.
  rewrite (atan2_polar a0 (rho * sin theta) a) by (try apply Rmult_lt_0_compat; assumption).
  replace (rho * cos theta / rho) with (cos theta) by (field; lra).
  rewrite acos_cos by lra.
  reflexivity.
Qed.

Lemma getColorOfBackground_equirectangular_witness :
  0 < 2 /\ 0 < 1 < pi /\ - pi < 1 <= pi /\
  value (getColorOfBackground 0 (fun uv => mkVec4 (v2x uv) (v2y uv) 0 1)
           (mkVec3 (2 * sin 1 * cos 1) (2 * cos 1) (2 * sin 1 * sin 1)) tt [])
  = mkVec4 ((1 + PI) / (2 * PI)) (1 - 1 / PI) 0 1.
Proof.
  pose proof PI2_3_2 as Hpi.
  assert (H1 : 0 < 2) by lra.
  assert (H2 : 0 < 1 < pi) by lra.
  assert (H3 : - pi < 1 <= pi) by lra.
  split; [ exact H1 | split; [ exact H2 | split; [ exact H3 | ] ] ].
  exact (getColorOfBackground_equirectangular 0
           (fun uv => mkVec4 (v2x uv) (v2y uv) 0 1) unit 2 1 1 tt [] H1 H2 H3).
Defined.

(** ** Further properties of the per-pixel program *)

Lemma reflect_x_axis (d : vec3) :
  reflect d (mkVec3 1 0 0) = mkVec3 (- vx d) (vy d) (vz d).
Proof. apply vec3_eq; unfold reflect, dot; simpl; ring. Qed.

Lemma length_reflect_x_axis (d : vec3) :
  length (reflect d (mkVec3 1 0 0)) = length d.
Proof.
  unfold length. rewrite dot_reflect_self; [ reflexivity | ].
  unfold dot; simpl; ring.
Qed.

(** The divisions of one run of [main]: those of the disc test, then the
    three of the lookup, the first of them by [|d|]. *)
Lemma main_divisions (a0 : R) (tex : sampler2D) (cam ip : vec3) (st : mainFrame)
      (lg : divlog) :
  let d := ip -v cam in
  divisions (main a0 tex cam ip st lg)
  = PI :: 2 * PI :: length d
       :: divisions (intersectDisc cam d (mkVec3 3 0 0) (mkVec3 1 0 0) 1 tt lg).
Proof.
  intros d.
  unfold main, bind, modify, gets, ret.
  cbn [loc_s loc_d loc_nHat set_loc_s set_loc_d set_loc_nHat].
  fold d.
  rewrite !intersectDisc_run.
  disc_cases; cbn [fst snd loc_d loc_s loc_nHat set_loc_d set_loc_s];
    rewrite getColorOfBackground_run; unfold divisions; cbn [snd];
    try rewrite length_reflect_x_axis; reflexivity.
Qed.

Lemma vsub_zero_iff (a b : vec3) : a -v b = mkVec3 0 0 0 <-> a = b.
Proof.
  split.
  - intros E. apply vec3_eq.
    + apply (f_equal vx) in E; simpl in E; lra.
    + apply (f_equal vy) in E; simpl in E; lra.
    + apply (f_equal vz) in E; simpl in E; lra.
  - intros ->. apply vec3_eq; simpl; ring.
Qed.

(** X13.  One run of [main] executes no division by zero exactly when the
    fragment is not at the camera position: the only divisor that can
    vanish is [|d|], which the mirror leaves as it is. *)
Theorem main_zero_division (a0 : R) (tex : sampler2D) (cam ip : vec3) (st : mainFrame) :
  Forall (fun y => y <> 0) (divisions (main a0 tex cam ip st [])) <-> ip <> cam.
Proof.
  rewrite main_divisions.
  pose proof PI_pos as HPI.
  pose proof (intersectDisc_divisors_nonzero unit cam (ip -v cam) (mkVec3 3 0 0)
                (mkVec3 1 0 0) 1 tt) as Hdisc.
  split.
  - intros Hall Heq.
    inversion Hall as [ | ? ? _ Hall1 ]; subst.
    inversion Hall1 as [ | ? ? _ Hall2 ]; subst.
    inversion Hall2 as [ | ? ? Hl _ ]; subst.
    apply Hl. apply length_zero_iff. apply vsub_zero_iff. reflexivity.
  - intros Hne.
    repeat constructor; try lra; [ | exact Hdisc ].
    intros Hl. apply Hne. apply vsub_zero_iff. apply length_zero_iff. exact Hl.
Qed.

(** X14.  The colour [main] emits, in closed form: the texture is read on
    the row set by [d.y / |d|] whether or not the mirror is hit, and on
    the column set by the azimuth of [(d.x, d.z)], with the sign of [d.x]
    turned when the mirror is hit.  The mirror changes nothing else. *)
Theorem main_colour (a0 : R) (tex : sampler2D) (cam ip : vec3) (st : mainFrame)
        (lg : divlog) :
  let d := ip -v cam in
  let hit := fst (disc_test cam d (mkVec3 3 0 0) (mkVec3 1 0 0) 1) in
  let x' := if hit then - vx d else vx d in
  gl_FragColor (frame_of (main a0 tex cam ip st lg))
  = texture2D tex (mkVec2 ((atan2 a0 (vz d) x' + PI) / (2 * PI))
                          (1 - acos (vy d / length d) / PI)).
Proof.
  intros d hit x'.
  pose proof (main_run a0 tex cam ip st lg) as Hrun. cbv zeta in Hrun.
  rewrite Hrun. clear Hrun. fold d hit. cbn [gl_FragColor].
  rewrite getColorOfBackground_run. unfold value; cbn [fst].
  subst x'. destruct hit.
  - rewrite length_reflect_x_axis, reflect_x_axis. reflexivity.
  - reflexivity.
Qed.

Lemma disc_test_run (s d c nHat : vec3) (r : R) :
  let deltaN := dot (c -v s) nHat in
  let dN := dot d nHat in
  let i := s +v d *v (deltaN / dN) in
  disc_test s d c nHat r =
    if Rgt_dec (dN * deltaN) 0 then
      if Rle_dec (length (i -v c)) r then (true, i) else (false, s)
    else (false, s).
Proof.
  intros deltaN dN i. unfold disc_test.
  rewrite intersectDisc_run. fold deltaN dN i.
  disc_cases; reflexivity.
Qed.

(** X16.  What the mirror shows is the mirror image.  When [main] hits
    the disc, every point of the ray it ends with is the reflection in
    the disc plane [x = 3] of the corresponding point of the incoming
    ray continued behind the disc. *)
Theorem main_mirror_image (a0 : R) (tex : sampler2D) (cam ip : vec3) (st : mainFrame)
        (lg : divlog) (t : R) :
  let d := ip -v cam in
  fst (disc_test cam d (mkVec3 3 0 0) (mkVec3 1 0 0) 1) = true ->
  let f := frame_of (main a0 tex cam ip st lg) in
  let behind := loc_s f +v d *v t in
  let seen := loc_s f +v loc_d f *v t in
  seen = mkVec3 (6 - vx behind) (vy behind) (vz behind).
Proof.
  intros d Hhit f behind seen. subst seen behind f.
  pose proof (main_run a0 tex cam ip st lg) as Hrun. cbv zeta in Hrun.
  rewrite Hrun. clear Hrun. fold d. rewrite Hhit. cbn [loc_s loc_d].
  rewrite reflect_x_axis.
  pose proof (disc_test_run cam d (mkVec3 3 0 0) (mkVec3 1 0 0) 1) as H1.
  cbv zeta in H1. rewrite H1 in Hhit |- *.
  destruct (Rgt_dec _ 0) as [Hfwd | Hfwd]; [ | discriminate ].
  destruct (Rle_dec _ 1) as [Hin | Hin]; [ | discriminate ].
  destruct (forward_parameter_pos _ _ Hfwd) as [Hnz _].
  cbn [snd].
  assert (Hx : dot d (mkVec3 1 0 0) = vx d) by (unfold dot; simpl; ring).
  assert (Hc : dot (mkVec3 3 0 0 -v cam) (mkVec3 1 0 0) = 3 - vx cam)
    by (unfold dot; simpl; ring).
  rewrite Hx, Hc in *.
  apply vec3_eq; simpl; field; exact Hnz.
Qed.

Lemma main_mirror_image_witness :
  let tex := fun uv => mkVec4 (v2x uv) (v2y uv) 0 1 in
  let f := frame_of (main 0 tex (mkVec3 5 0 0) (mkVec3 4 0 0)
                       (mkMainFrame (mkVec3 0 0 0) (mkVec3 0 0 0) (mkVec3 0 0 0)
                          (mkVec4 0 0 0 0)) []) in
  let d := mkVec3 4 0 0 -v mkVec3 5 0 0 in
  fst (disc_test (mkVec3 5 0 0) d (mkVec3 3 0 0) (mkVec3 1 0 0) 1) = true /\
  loc_s f +v loc_d f *v 2
  = mkVec3 (6 - vx (loc_s f +v d *v 2)) (vy (loc_s f +v d *v 2))
      (vz (loc_s f +v d *v 2)).
Proof.
  assert (H : fst (disc_test (mkVec3 5 0 0) (mkVec3 4 0 0 -v mkVec3 5 0 0)
                     (mkVec3 3 0 0) (mkVec3 1 0 0) 1) = true).
  { replace (mkVec3 4 0 0 -v mkVec3 5 0 0) with (mkVec3 (-1) 0 0)
      by (apply vec3_eq; simpl; ring).
    rewrite <- (intersectDisc_value unit _ _ _ _ _ tt []), scenario1_run.
    reflexivity. }
  split; [ exact H | ].
  exact (main_mirror_image 0 (fun uv => mkVec4 (v2x uv) (v2y uv) 0 1)
           (mkVec3 5 0 0) (mkVec3 4 0 0)
           (mkMainFrame (mkVec3 0 0 0) (mkVec3 0 0 0) (mkVec3 0 0 0)
              (mkVec4 0 0 0 0)) [] 2 H).
Defined.
